(** * The asynchronous greeter server (greeter_async_server.cc)

    A shallow embedding of [CallDataBase], [HelloCallData], [ByeCallData] and
    [ServerImpl], and the properties of the call life cycle.

    The program is sequential C++ that mutates heap objects it reaches through
    [void*] tags, calls into the gRPC runtime and may die in [GPR_ASSERT].
    Hence:
    - call objects live in a heap, a finite map from addresses to objects;
      [new] takes its address from an allocator of which only freshness is
      known, [delete this] removes the object;
    - every call into the gRPC runtime (and the line written to [std::cout])
      is appended to a trace, in program order;
    - code is written in a state monad whose results distinguish normal
      return, [abort()], undefined behaviour and blocking in [cq_->Next];
    - what the completion queue delivers is an input: the list of things the
      runtime does while the dispatcher runs. *)

From stdpp Require Import gmap strings list.

Local Open Scope string_scope.

(** ** Data *)

(** An address of a call object; the [void* tag] of an event is one. *)
Abbreviation addr := nat (only parsing).

(** [enum CallStatus { PROCESS, FINISH }] *)
Inductive CallStatus := PROCESS | FINISH.

(** The two classes derived from [CallDataBase]: the dynamic type of an
    object, which selects the override of [Process]. *)
Inductive CallClass := HelloCallData | ByeCallData.

Global Instance CallStatus_eq_dec : EqDecision CallStatus.
Proof. solve_decision. Defined.

Global Instance CallClass_eq_dec : EqDecision CallClass.
Proof. solve_decision. Defined.

(** A call object. [request_] holds the [name] field of the request message
    and [reply_] the [message] field of the reply message; both are empty in
    a freshly built protobuf message. The members [service_], [cq_], [ctx_]
    and [responder_] are fixed handles into the runtime and carry no state of
    the program.

    [advances] is a ghost field: the value of [status_] at every entry of
    [Proceed] on this object, oldest first. No code reads it. *)
Record CallData := mkCallData {
  dyn_class : CallClass;
  status_ : CallStatus;
  request_ : string;
  reply_ : string;
  advances : list CallStatus
}.

Definition set_status (st : CallStatus) (cd : CallData) : CallData :=
  mkCallData (dyn_class cd) st (request_ cd) (reply_ cd) (advances cd).

Definition set_request (name : string) (cd : CallData) : CallData :=
  mkCallData (dyn_class cd) (status_ cd) name (reply_ cd) (advances cd).

Definition set_message (msg : string) (cd : CallData) : CallData :=
  mkCallData (dyn_class cd) (status_ cd) (request_ cd) msg (advances cd).

Definition log_advance (cd : CallData) : CallData :=
  mkCallData (dyn_class cd) (status_ cd) (request_ cd) (reply_ cd)
             (advances cd ++ [status_ cd]).

(** [grpc::Status]; the program only ever passes [Status::OK]. *)
Inductive Status := OK | CANCELLED | UNKNOWN.

(** The reply message handed to [responder_.Finish]. *)
Inductive Reply := HelloReply (message : string) | GoodbyeReply (message : string).

Inductive Credentials := InsecureServerCredentials | SslServerCredentials.

(** Calls that leave the program, in the order in which they are made. *)
Inductive Call :=
| AddListeningPort (address : string) (creds : Credentials)
| RegisterService
| AddCompletionQueue
| BuildAndStart
| Cout (line : string)
| RequestSayHello (tag : addr)
| RequestSayGoodbye (tag : addr)
| Finish (tag : addr) (reply : Reply) (status : Status)
| ServerShutdown
| CqShutdown.

Global Instance Status_eq_dec : EqDecision Status.
Proof. solve_decision. Defined.

Global Instance Reply_eq_dec : EqDecision Reply.
Proof. solve_decision. Defined.

Global Instance Credentials_eq_dec : EqDecision Credentials.
Proof. solve_decision. Defined.

Global Instance Call_eq_dec : EqDecision Call.
Proof. solve_decision. Defined.

(** The state of the process. [released] is ghost: the objects destroyed by
    [delete this], as they were at that moment, latest first. *)
Record State := mkState {
  heap : gmap nat CallData;
  trace : list Call;
  released : list CallData
}.

Definition init_state : State := mkState ∅ [] [].

(** ** The allocator

    [new] returns the address of storage that holds no live object; nothing
    else is known of it, and storage of a deleted object may come back. *)
Class Allocator := {
  alloc : gmap nat CallData → nat;
  alloc_fresh : ∀ h, h !! alloc h = None
}.

(** ** The monad of the program *)

Inductive Result (A : Type) : Type :=
| Ret (a : A) (s : State)   (* the code returned [a] *)
| Abort (s : State)         (* a GPR_ASSERT failed: the process aborted *)
| Undef (s : State)         (* undefined behaviour: a dangling tag, a null pointer *)
| Block (s : State).        (* blocked in [cq_->Next]: no further event came *)

Arguments Ret {A} a s.
Arguments Abort {A} s.
Arguments Undef {A} s.
Arguments Block {A} s.

(** The state in which a computation ended, however it ended. *)
Definition final {A} (r : Result A) : State :=
  match r with Ret _ s | Abort s | Undef s | Block s => s end.

Definition M (A : Type) : Type := State → Result A.

Global Instance M_ret : MRet M := λ A a s, Ret a s.

Global Instance M_bind : MBind M := λ A B f m s,
  match m s with
  | Ret a s' => f a s'
  | Abort s' => Abort s'
  | Undef s' => Undef s'
  | Block s' => Block s'
  end.

(** [GPR_ASSERT(b)] *)
Definition gpr_assert (b : bool) : M unit :=
  λ s, if b then Ret () s else Abort s.

(** A call into the runtime. *)
Definition emit (c : Call) : M unit :=
  λ s, Ret () (mkState (heap s) (trace s ++ [c]) (released s)).

(** Reading and writing the members of [*this]. *)
Definition load (this : addr) : M CallData :=
  λ s, match heap s !! this with
       | Some cd => Ret cd s
       | None => Undef s
       end.

Definition store (this : addr) (cd : CallData) : M unit :=
  λ s, match heap s !! this with
       | Some _ => Ret () (mkState (<[this := cd]> (heap s)) (trace s) (released s))
       | None => Undef s
       end.

(** [delete this] *)
Definition delete_this (this : addr) : M unit :=
  λ s, match heap s !! this with
       | Some cd => Ret () (mkState (delete this (heap s)) (trace s) (cd :: released s))
       | None => Undef s
       end.

(** Blocking for ever in [cq_->Next]. *)
Definition block {A} : M A := λ s, Block s.

(** ** The server object *)

(** The objects that [cq_] and [server_] own once they are assigned; both
    live in the runtime. *)
Inductive ServerCompletionQueue := the_completion_queue.

Inductive Server := the_server.

(** [class ServerImpl]. [cq_] and [server_] are [std::unique_ptr]s: null
    ([None]) in a [ServerImpl] as it is constructed, until [Run] assigns
    them. [service_] holds no state of the program. *)
Record ServerImpl := mkServerImpl {
  cq_ : option ServerCompletionQueue;
  server_ : option Server
}.

(** [ServerImpl server;] *)
Definition new_ServerImpl : ServerImpl := mkServerImpl None None.

(** [p->...] on a [std::unique_ptr]: undefined behaviour when [p] is null. *)
Definition arrow {A} (p : option A) : M A :=
  λ s, match p with
       | Some a => Ret a s
       | None => Undef s
       end.

(** What [cq_->Next(&tag, &ok)] gives: [false] when the queue is shut down and
    drained, else [true] with an event. *)
Inductive NextResult :=
| NextShutdown
| NextTag (tag : addr) (ok : bool).

Definition Next_value (r : NextResult) : bool :=
  match r with NextShutdown => false | NextTag _ _ => true end.

(** What the runtime does while the dispatcher runs: a call of a client
    arrives and the runtime stores its request into the [request_] that was
    registered under [tag], or [Next] returns. *)
Inductive Env :=
| Incoming (tag : addr) (name : string)
| NextReturns (r : NextResult).

Section Program.

Context {allocator : Allocator}.

(** [new T]: storage, then the base constructor
    [CallDataBase(service, cq) : ..., status_(PROCESS)] and empty messages. *)
Definition new (c : CallClass) : M addr :=
  λ s, let this := alloc (heap s) in
       Ret this (mkState (<[this := mkCallData c PROCESS "" "" []]> (heap s))
                         (trace s) (released s)).

(** ** The call objects *)

(** [new HelloCallData(service, cq)] *)
Definition new_HelloCallData : M addr :=
  this ← new HelloCallData;
  emit (RequestSayHello this);;
  mret this.

(** [new ByeCallData(service, cq)] *)
Definition new_ByeCallData : M addr :=
  this ← new ByeCallData;
  emit (RequestSayGoodbye this);;
  mret this.

(** [HelloCallData::Process] *)
Definition HelloCallData_Process (this : addr) : M unit :=
  new_HelloCallData;;
  cd ← load this;
  let prefix := "Hello " in
  store this (set_message (prefix +:+ request_ cd) cd);;
  cd ← load this;
  emit (Finish this (HelloReply (reply_ cd)) OK).

(** [ByeCallData::Process] *)
Definition ByeCallData_Process (this : addr) : M unit :=
  new_ByeCallData;;
  cd ← load this;
  let prefix := "Goodbye " in
  store this (set_message (prefix +:+ request_ cd) cd);;
  cd ← load this;
  emit (Finish this (GoodbyeReply (reply_ cd)) OK).

(** The virtual call [Process()]. *)
Definition Process (this : addr) : M unit :=
  cd ← load this;
  match dyn_class cd with
  | HelloCallData => HelloCallData_Process this
  | ByeCallData => ByeCallData_Process this
  end.

(** [CallDataBase::Proceed]. The first two lines are the ghost log. *)
Definition Proceed (this : addr) : M unit :=
  cd ← load this;
  store this (log_advance cd);;
  cd ← load this;
  if decide (status_ cd = PROCESS) then
    store this (set_status FINISH cd);;
    Process this
  else
    gpr_assert (bool_decide (status_ cd = FINISH));;
    delete_this this.

(** ** The server *)

Definition runtime_stores (tag : addr) (name : string) : M unit :=
  λ s, match heap s !! tag with
       | Some cd => Ret () (mkState (<[tag := set_request name cd]> (heap s))
                                    (trace s) (released s))
       | None => Ret () s
       end.

(** One turn of the [while (true)] of [HandleRpcs]. *)
Definition loop_body (e : Env) : M unit :=
  match e with
  | Incoming tag name => runtime_stores tag name
  | NextReturns r =>
      gpr_assert (Next_value r);;
      match r with
      | NextShutdown => mret ()
      | NextTag tag ok =>
          gpr_assert ok;;
          Proceed tag
      end
  end.

(** The [while (true)]: there is no [break] and no [return]. *)
Fixpoint event_loop (script : list Env) : M unit :=
  match script with
  | [] => block
  | e :: rest => loop_body e;; event_loop rest
  end.

(** [ServerImpl::HandleRpcs] *)
Definition HandleRpcs (script : list Env) : M unit :=
  new_HelloCallData;;
  new_ByeCallData;;
  event_loop script.

(** [ServerImpl::Run], on the object [this]; it assigns [cq_] and then
    [server_] (the builder is taken to succeed), and gives the object as it
    has become. [HandleRpcs] is private and entered from here only, with
    [cq_] assigned. *)
Definition Run (this : ServerImpl) (script : list Env) : M ServerImpl :=
  let server_address := "0.0.0.0:50051" in
  emit (AddListeningPort server_address InsecureServerCredentials);;
  emit RegisterService;;
  emit AddCompletionQueue;;
  let this := mkServerImpl (Some the_completion_queue) (server_ this) in
  emit BuildAndStart;;
  let this := mkServerImpl (cq_ this) (Some the_server) in
  emit (Cout ("Server listening on " +:+ server_address));;
  HandleRpcs script;;
  mret this.

(** [ServerImpl::~ServerImpl], on the object [this]: [server_->Shutdown()],
    then [cq_->Shutdown()], each through a pointer that may be null. *)
Definition ServerImpl_destroy (this : ServerImpl) : M unit :=
  arrow (server_ this);;
  emit ServerShutdown;;
  arrow (cq_ this);;
  emit CqShutdown.

(** [main]: [server] is destroyed when [main] returns. *)
Definition main (argc : Z) (argv : list string) (script : list Env) : M Z :=
  let server := new_ServerImpl in
  server ← Run server script;
  ServerImpl_destroy server;;
  mret 0%Z.

End Program.

(** ** Running the model

    The allocator used to run the model hands out an address that no live
    object has (stdpp's [fresh] on the domain of the heap). *)
Definition fresh_address (h : gmap nat CallData) : nat := fresh (dom h).

Definition fresh_allocator : Allocator :=
  {| alloc := fresh_address;
     alloc_fresh := λ h, proj1 (not_elem_of_dom h (fresh_address h)) (is_fresh (dom h)) |}.

(** ** Notions used in the statements *)

(** What the dispatcher has to do with an object after [Proceed]: the code
    returns [void] and either leaves the object alive or has run
    [delete this]. *)
Inductive Action := Continue | Release.

Definition action_after (this : addr) (after : State) : Action :=
  match heap after !! this with
  | Some _ => Continue
  | None => Release
  end.

(** The registration call made by the constructor of class [c]. *)
Definition registration (c : CallClass) (tag : addr) : Call :=
  match c with
  | HelloCallData => RequestSayHello tag
  | ByeCallData => RequestSayGoodbye tag
  end.

(** The message computed by [Process] of class [c] from the name in the
    request. *)
Definition response (c : CallClass) (name : string) : string :=
  match c with
  | HelloCallData => "Hello " +:+ name
  | ByeCallData => "Goodbye " +:+ name
  end.

(** The reply message type of class [c]. *)
Definition reply_message (c : CallClass) (msg : string) : Reply :=
  match c with
  | HelloCallData => HelloReply msg
  | ByeCallData => GoodbyeReply msg
  end.

(** An object as the constructor of class [c] leaves it. *)
Definition fresh_call (c : CallClass) : CallData := mkCallData c PROCESS "" "" [].

(** Some object of class [c] is in state [PROCESS]. *)
Definition accepting (c : CallClass) (s : State) : Prop :=
  ∃ tag cd, heap s !! tag = Some cd ∧ dyn_class cd = c ∧ status_ cd = PROCESS.

(** The history of every object agrees with its state: a live object in
    [PROCESS] was never advanced, a live object in [FINISH] was advanced once,
    in [PROCESS], and a released object was advanced twice, in [PROCESS] and
    then in [FINISH]. *)
Definition live_history (cd : CallData) : Prop :=
  (status_ cd = PROCESS ∧ advances cd = []) ∨
  (status_ cd = FINISH ∧ advances cd = [PROCESS]).

Definition released_history (cd : CallData) : Prop :=
  status_ cd = FINISH ∧ advances cd = [PROCESS; FINISH].

Definition lifecycle (s : State) : Prop :=
  (∀ tag cd, heap s !! tag = Some cd → live_history cd) ∧
  (∀ cd, cd ∈ released s → released_history cd).

(** The listening ports in a trace. *)
Definition listening_ports (t : list Call) : list (string * Credentials) :=
  omap (λ c, match c with
             | AddListeningPort a cr => Some (a, cr)
             | _ => None
             end) t.

(** The shutdown calls in a trace, in order. *)
Definition shutdowns (t : list Call) : list Call :=
  filter (λ c, c = ServerShutdown ∨ c = CqShutdown) t.

Section Symbolic.

Context {allocator : Allocator}.

(** The address that [new] returns in [Process] when [Proceed] finds [*this]
    equal to [cd], in [PROCESS]. *)
Definition sibling (this : addr) (cd : CallData) (s : State) : addr :=
  alloc (<[this := set_status FINISH (log_advance cd)]> (heap s)).

(** The state in which [Proceed] leaves the process in that case. *)
Definition processed (this : addr) (cd : CallData) (s : State) : State :=
  let c := dyn_class cd in
  let cd1 := set_status FINISH (log_advance cd) in
  let cd2 := set_message (response c (request_ cd)) cd1 in
  mkState (<[this := cd2]> (<[sibling this cd s := fresh_call c]> (<[this := cd1]> (heap s))))
          (trace s ++ [registration c (sibling this cd s);
                       Finish this (reply_message c (response c (request_ cd))) OK])
          (released s).

(** The same when [Proceed] finds [*this] in [FINISH]. *)
Definition finished (this : addr) (cd : CallData) (s : State) : State :=
  mkState (delete this (heap s)) (trace s) (log_advance cd :: released s).

(** The state after the runtime has stored a request. *)
Definition stored (tag : addr) (name : string) (cd : CallData) (s : State) : State :=
  mkState (<[tag := set_request name cd]> (heap s)) (trace s) (released s).

(** What one turn of the dispatcher loop can do to the state, when it does
    anything. *)
Inductive step : State → State → Prop :=
| step_stored tag name cd s :
    heap s !! tag = Some cd →
    step s (stored tag name cd s)
| step_processed this cd s :
    heap s !! this = Some cd → status_ cd = PROCESS →
    step s (processed this cd s)
| step_finished this cd s :
    heap s !! this = Some cd → status_ cd = FINISH →
    step s (finished this cd s).

(** The state in which [Run] enters the loop. *)
Definition started (s : State) : State := final (Run new_ServerImpl [] s).

End Symbolic.

(** The model run with that allocator: the state in which [main] enters the
    loop (the [HelloCallData] is at 0, the [ByeCallData] at 1), and the state
    after a call of the greeting method with name ["World"] has been
    answered. *)
Definition ready : State := @started fresh_allocator init_state.

Definition world : list Env := [Incoming 0 "World"; NextReturns (NextTag 0 true)].

Definition greeted : State := final (@event_loop fresh_allocator world ready).

(** Two calls, one of each method, each answered and released, in the order
    in which the runtime may deliver them. *)
Definition two_calls : list Env :=
  [Incoming 1 "World"; NextReturns (NextTag 1 true);
   Incoming 0 "World"; NextReturns (NextTag 0 true);
   NextReturns (NextTag 0 true); NextReturns (NextTag 1 true);
   Incoming 3 "again"; NextReturns (NextTag 3 true)].

(** ** Counting objects and calls *)

(** The number of live objects that satisfy [p]. *)
Definition live_count (p : CallData → bool) (h : gmap nat CallData) : nat :=
  size (filter (λ kv, p kv.2 = true) h).

(** The number of calls in a trace that satisfy [p]. *)
Definition count_calls (p : Call → bool) (t : list Call) : nat :=
  length (filter (λ c, p c = true) t).

Definition of_class (c : CallClass) (cd : CallData) : bool :=
  bool_decide (dyn_class cd = c).

Definition in_FINISH (cd : CallData) : bool :=
  bool_decide (status_ cd = FINISH).

(** The registration calls of class [c], and the calls of [Finish]. *)
Definition is_registration (c : CallClass) (call : Call) : bool :=
  match call, c with
  | RequestSayHello _, HelloCallData => true
  | RequestSayGoodbye _, ByeCallData => true
  | _, _ => false
  end.

Definition is_Finish (call : Call) : bool :=
  match call with
  | Finish _ _ _ => true
  | _ => false
  end.

(** At most one object of class [c] is in [PROCESS]. *)
Definition at_most_one_accepting (c : CallClass) (s : State) : Prop :=
  ∀ t1 t2 cd1 cd2,
    heap s !! t1 = Some cd1 → heap s !! t2 = Some cd2 →
    dyn_class cd1 = c → dyn_class cd2 = c →
    status_ cd1 = PROCESS → status_ cd2 = PROCESS →
    t1 = t2.

(** Every live object was registered under its address by the constructor of
    its class, and every call of [Finish] passes [Status::OK] and the reply
    of a class under which its tag was registered before. *)
Definition answers_registered (s : State) : Prop :=
  (∀ tag cd, heap s !! tag = Some cd →
     ∃ j, trace s !! j = Some (registration (dyn_class cd) tag)) ∧
  (∀ i tag r st, trace s !! i = Some (Finish tag r st) →
     st = OK ∧
     ∃ c name j, r = reply_message c (response c name) ∧ j < i ∧
                 trace s !! j = Some (registration c tag)).

(** The registrations of class [c] are as many as the objects of class [c],
    live or released. *)
Definition registrations_match (c : CallClass) (s : State) : Prop :=
  count_calls (is_registration c) (trace s) =
    live_count (of_class c) (heap s) +
    length (filter (λ cd, of_class c cd = true) (released s)).

(** The calls of [Finish] are as many as the objects that have left
    [PROCESS], live or released. *)
Definition finishes_match (s : State) : Prop :=
  count_calls is_Finish (trace s) =
    live_count in_FINISH (heap s) + length (released s).

(** The live objects are two more than those in [FINISH]. *)
Definition heap_accounted (s : State) : Prop :=
  size (heap s) = 2 + live_count in_FINISH (heap s).

(** ** The discipline of the runtime

    The gRPC runtime delivers a tag only for an operation that was started
    with it and has not been reported yet: one event for every registration
    ([RequestSayHello], [RequestSayGoodbye]) and one for every [Finish]. *)

(** The tag with which a call starts an operation, if it starts one. *)
Definition posted (call : Call) : option addr :=
  match call with
  | RequestSayHello tag | RequestSayGoodbye tag | Finish tag _ _ => Some tag
  | _ => None
  end.

(** The tags of the operations started between two states. *)
Definition posted_since (before after : State) : gset nat :=
  list_to_set (omap posted (drop (length (trace before)) (trace after))).

Section Discipline.

Context {allocator : Allocator}.

(** [disciplined pending script s]: run from [s] with the tags [pending]
    outstanding, [script] delivers outstanding tags only. A delivered tag is
    no longer outstanding; the tags posted while it is handled become so.
    After a shutdown or an event that is not [ok] the process is dead and
    nothing more is asked of the script. *)
Fixpoint disciplined (pending : gset nat) (script : list Env) (s : State) : bool :=
  match script with
  | [] => true
  | Incoming tag name :: rest =>
      disciplined pending rest (final (loop_body (Incoming tag name) s))
  | NextReturns NextShutdown :: _ => true
  | NextReturns (NextTag tag false) :: _ => bool_decide (tag ∈ pending)
  | NextReturns (NextTag tag true) :: rest =>
      bool_decide (tag ∈ pending) &&
      let s' := final (loop_body (NextReturns (NextTag tag true)) s) in
      disciplined (pending ∖ {[tag]} ∪ posted_since s s') rest s'
  end.

End Discipline.

(** * Properties *)

Section Properties.

Context {allocator : Allocator}.

(** ** Running the code symbolically *)

Lemma bind_unfold {A B} (m : M A) (f : A → M B) (s : State) :
  (m ≫= f) s = match m s with
               | Ret a s' => f a s'
               | Abort s' => Abort s'
               | Undef s' => Undef s'
               | Block s' => Block s'
               end.
Proof. reflexivity. Qed.

Lemma load_live this cd s : heap s !! this = Some cd → load this s = Ret cd s.
Proof. intros E. unfold load. by rewrite E. Qed.

Lemma store_live this cd cd' s :
  heap s !! this = Some cd →
  store this cd' s = Ret () (mkState (<[this := cd']> (heap s)) (trace s) (released s)).
Proof. intros E. unfold store. by rewrite E. Qed.

Lemma alloc_other h this (cd : CallData) : h !! this = Some cd → alloc h ≠ this.
Proof. intros E Eq. rewrite <- Eq, alloc_fresh in E. discriminate. Qed.

Lemma new_HelloCallData_eq s :
  new_HelloCallData s =
    Ret (alloc (heap s))
        (mkState (<[alloc (heap s) := fresh_call HelloCallData]> (heap s))
                 (trace s ++ [RequestSayHello (alloc (heap s))]) (released s)).
Proof. reflexivity. Qed.

Lemma new_ByeCallData_eq s :
  new_ByeCallData s =
    Ret (alloc (heap s))
        (mkState (<[alloc (heap s) := fresh_call ByeCallData]> (heap s))
                 (trace s ++ [RequestSayGoodbye (alloc (heap s))]) (released s)).
Proof. reflexivity. Qed.

(** The body of [Process] after the constructor of the sibling: two reads of
    [*this], one write and the call of [Finish]. *)
Ltac run_response E Ne :=
  rewrite bind_unfold;
  erewrite load_live by (cbn [heap]; rewrite lookup_insert_ne by done; exact E);
  rewrite bind_unfold;
  erewrite store_live by (cbn [heap]; rewrite lookup_insert_ne by done; exact E);
  rewrite bind_unfold;
  erewrite load_live by (cbn [heap]; apply lookup_insert_eq);
  unfold emit; cbn [heap trace released set_message reply_];
  by rewrite <- app_assoc.

Lemma HelloCallData_Process_live this cd s :
  heap s !! this = Some cd →
  HelloCallData_Process this s =
    Ret () (mkState (<[this := set_message ("Hello " +:+ request_ cd) cd]>
                       (<[alloc (heap s) := fresh_call HelloCallData]> (heap s)))
                    (trace s ++ [RequestSayHello (alloc (heap s));
                                 Finish this (HelloReply ("Hello " +:+ request_ cd)) OK])
                    (released s)).
Proof.
  intros E. pose proof (alloc_other _ _ _ E) as Ne.
  unfold HelloCallData_Process.
  rewrite bind_unfold, new_HelloCallData_eq.
  run_response E Ne.
Qed.

Lemma ByeCallData_Process_live this cd s :
  heap s !! this = Some cd →
  ByeCallData_Process this s =
    Ret () (mkState (<[this := set_message ("Goodbye " +:+ request_ cd) cd]>
                       (<[alloc (heap s) := fresh_call ByeCallData]> (heap s)))
                    (trace s ++ [RequestSayGoodbye (alloc (heap s));
                                 Finish this (GoodbyeReply ("Goodbye " +:+ request_ cd)) OK])
                    (released s)).
Proof.
  intros E. pose proof (alloc_other _ _ _ E) as Ne.
  unfold ByeCallData_Process.
  rewrite bind_unfold, new_ByeCallData_eq.
  run_response E Ne.
Qed.

Lemma Proceed_dangling this s : heap s !! this = None → Proceed this s = Undef s.
Proof.
  intros E. unfold Proceed. rewrite bind_unfold. unfold load at 1. by rewrite E.
Qed.

Lemma Proceed_FINISH this cd s :
  heap s !! this = Some cd → status_ cd = FINISH →
  Proceed this s = Ret () (finished this cd s).
Proof.
  intros E St. unfold Proceed.
  rewrite bind_unfold, (load_live _ _ _ E).
  rewrite bind_unfold, (store_live _ _ _ _ E).
  rewrite bind_unfold.
  erewrite load_live by (simpl; apply lookup_insert_eq).
  destruct (decide _) as [E'|_]; [simpl in E'; congruence|].
  rewrite bind_unfold. simpl status_. rewrite St. simpl.
  unfold delete_this. simpl. rewrite lookup_insert_eq.
  unfold finished. f_equal. f_equal.
  by rewrite delete_insert_eq.
Qed.

Lemma Proceed_PROCESS this cd s :
  heap s !! this = Some cd → status_ cd = PROCESS →
  Proceed this s = Ret () (processed this cd s).
Proof.
  intros E St. unfold Proceed.
  rewrite bind_unfold, (load_live _ _ _ E).
  rewrite bind_unfold, (store_live _ _ _ _ E).
  rewrite bind_unfold.
  erewrite load_live by (simpl; apply lookup_insert_eq).
  destruct (decide _) as [_|E']; [|simpl in E'; congruence].
  rewrite bind_unfold.
  erewrite store_live by (simpl; apply lookup_insert_eq).
  simpl heap. rewrite insert_insert_eq. simpl trace. simpl released.
  unfold Process. rewrite bind_unfold.
  erewrite load_live by (simpl; apply lookup_insert_eq).
  unfold processed, sibling.
  destruct cd as [c st rq rp adv]; simpl in St; subst st.
  destruct c; cbn [dyn_class set_status log_advance].
  - erewrite HelloCallData_Process_live by (simpl; apply lookup_insert_eq).
    reflexivity.
  - erewrite ByeCallData_Process_live by (simpl; apply lookup_insert_eq).
    reflexivity.
Qed.

(** The heap after [Proceed] in [PROCESS]. *)
Lemma sibling_other this cd s : sibling this cd s ≠ this.
Proof. unfold sibling. eapply alloc_other. apply lookup_insert_eq. Qed.

Lemma sibling_fresh this cd s : heap s !! sibling this cd s = None.
Proof.
  pose proof (sibling_other this cd s) as Ne.
  pose proof (alloc_fresh (<[this := set_status FINISH (log_advance cd)]> (heap s))) as F.
  fold (sibling this cd s) in F. by rewrite lookup_insert_ne in F.
Qed.

Lemma processed_this this cd s :
  heap (processed this cd s) !! this =
    Some (mkCallData (dyn_class cd) FINISH (request_ cd)
                     (response (dyn_class cd) (request_ cd)) (advances cd ++ [status_ cd])).
Proof. unfold processed. cbn [heap]. by rewrite lookup_insert_eq. Qed.

Lemma processed_sibling this cd s :
  heap (processed this cd s) !! sibling this cd s = Some (fresh_call (dyn_class cd)).
Proof.
  pose proof (sibling_other this cd s) as Ne.
  unfold processed. cbn [heap].
  rewrite lookup_insert_ne by done. by rewrite lookup_insert_eq.
Qed.

Lemma processed_other this cd s tag :
  tag ≠ this → tag ≠ sibling this cd s →
  heap (processed this cd s) !! tag = heap s !! tag.
Proof.
  intros N1 N2. unfold processed. cbn [heap].
  by rewrite !lookup_insert_ne by done.
Qed.

(** ** The dispatcher loop *)

Lemma loop_body_ok tag s :
  loop_body (NextReturns (NextTag tag true)) s = Proceed tag s.
Proof. reflexivity. Qed.

Lemma loop_body_not_ok tag s :
  loop_body (NextReturns (NextTag tag false)) s = Abort s.
Proof. reflexivity. Qed.

Lemma loop_body_shutdown s : loop_body (NextReturns NextShutdown) s = Abort s.
Proof. reflexivity. Qed.

Lemma loop_body_step e s :
  final (loop_body e s) = s ∨ step s (final (loop_body e s)).
Proof.
  destruct e as [tag name|[|tag [|]]].
  - cbn [loop_body]. unfold runtime_stores.
    destruct (heap s !! tag) as [cd|] eqn:E; [|by left].
    right. by apply (step_stored tag name cd).
  - by left.
  - rewrite loop_body_ok.
    destruct (heap s !! tag) as [cd|] eqn:E.
    + destruct (status_ cd) eqn:St.
      * rewrite (Proceed_PROCESS _ _ _ E St). right. by apply step_processed.
      * rewrite (Proceed_FINISH _ _ _ E St). right. by apply step_finished.
    + rewrite (Proceed_dangling _ _ E). by left.
  - by left.
Qed.

Lemma event_loop_cons e rest s :
  event_loop (e :: rest) s =
    match loop_body e s with
    | Ret _ s' => event_loop rest s'
    | Abort s' => Abort s'
    | Undef s' => Undef s'
    | Block s' => Block s'
    end.
Proof. reflexivity. Qed.

Lemma loop_body_never_blocks e s s' : loop_body e s ≠ Block s'.
Proof.
  destruct e as [tag name|[|tag [|]]]; try done.
  - cbn [loop_body]. unfold runtime_stores. by destruct (heap s !! tag).
  - rewrite loop_body_ok.
    destruct (heap s !! tag) as [cd|] eqn:E.
    + destruct (status_ cd) eqn:St.
      * by rewrite (Proceed_PROCESS _ _ _ E St).
      * by rewrite (Proceed_FINISH _ _ _ E St).
    + by rewrite (Proceed_dangling _ _ E).
Qed.

(** The loop has no exit: it ends in [abort()], in undefined behaviour, or
    waits in [Next]. *)
Lemma event_loop_never_returns script s u s' : event_loop script s ≠ Ret u s'.
Proof.
  revert s. induction script as [|e rest IH]; intros s; [done|].
  rewrite event_loop_cons. destruct (loop_body e s); [apply IH|done..].
Qed.

(** A script that leaves the dispatcher waiting can be continued. *)
Lemma event_loop_app pre rest s s1 :
  event_loop pre s = Block s1 →
  event_loop (pre ++ rest) s = event_loop rest s1.
Proof.
  revert s. induction pre as [|e pre IH]; intros s E.
  - cbn in E. by injection E as ->.
  - cbn [app]. rewrite event_loop_cons in *.
    destruct (loop_body e s) as [[] s2|s2|s2|s2] eqn:B; try done.
    + by apply IH.
    + by apply loop_body_never_blocks in B.
Qed.

(** What every [step] preserves holds at every state the loop reaches. *)
Lemma event_loop_invariant (Inv : State → Prop) :
  (∀ s s', Inv s → step s s' → Inv s') →
  ∀ script s, Inv s → Inv (final (event_loop script s)).
Proof.
  intros Pres script. induction script as [|e rest IH]; intros s I; [done|].
  rewrite event_loop_cons.
  assert (Inv (final (loop_body e s))) as I'.
  { destruct (loop_body_step e s) as [->|St]; eauto. }
  destruct (loop_body e s); cbn [final] in *; auto.
Qed.

Lemma HandleRpcs_eq script s :
  HandleRpcs script s = event_loop script (final (HandleRpcs [] s)).
Proof. reflexivity. Qed.

Lemma Run_eq this script s :
  Run this script s =
    (event_loop script ≫=
       λ _, mret (mkServerImpl (Some the_completion_queue) (Some the_server)))
      (started s).
Proof. reflexivity. Qed.

Lemma main_eq argc argv script s :
  final (main argc argv script s) = final (event_loop script (started s)) ∧
  ∀ z s', main argc argv script s ≠ Ret z s'.
Proof.
  unfold main. cbn zeta. rewrite bind_unfold, Run_eq, bind_unfold.
  pose proof (event_loop_never_returns script (started s)) as NR.
  destruct (event_loop script (started s)) as [u s2|s2|s2|s2]; [by destruct (NR u s2)|..]; done.
Qed.

(** ** Invariants of the loop *)

Lemma accepting_step c s s' : accepting c s → step s s' → accepting c s'.
Proof.
  intros (t & w & L & C & P) St.
  destruct St as [tag name cd s E|this cd s E Q|this cd s E Q].
  - destruct (decide (t = tag)) as [->|Ne].
    + exists tag, (set_request name cd). cbn [stored heap].
      rewrite lookup_insert_eq. by simplify_eq.
    + exists t, w. cbn [stored heap]. by rewrite lookup_insert_ne.
  - destruct (decide (t = this)) as [->|Ne].
    + exists (sibling this cd s), (fresh_call (dyn_class cd)).
      rewrite processed_sibling. by simplify_eq.
    + exists t, w. rewrite processed_other; [done..|].
      intros ->. by rewrite sibling_fresh in L.
  - exists t, w. cbn [finished heap].
    rewrite lookup_delete_ne; [done|]. intros <-. simplify_eq. congruence.
Qed.

Lemma lifecycle_step s s' : lifecycle s → step s s' → lifecycle s'.
Proof.
  intros [Live Rel] St.
  destruct St as [tag name cd s E|this cd s E Q|this cd s E Q]; split.
  - intros t w. cbn [stored heap]. destruct (decide (tag = t)) as [->|Ne].
    + rewrite lookup_insert_eq. intros [= <-]. apply (Live _ _ E).
    + rewrite lookup_insert_ne by done. apply Live.
  - done.
  - intros t w. destruct (decide (t = this)) as [->|N1].
    { rewrite processed_this. intros [= <-]. right.
      destruct (Live _ _ E) as [[_ A]|[? _]]; [|congruence].
      cbn. by rewrite A, Q. }
    destruct (decide (t = sibling this cd s)) as [->|N2].
    { rewrite processed_sibling. intros [= <-]. by left. }
    rewrite processed_other by done. apply Live.
  - done.
  - intros t w. cbn [finished heap]. intros L.
    apply lookup_delete_Some in L as [_ L]. by apply (Live t).
  - intros w. cbn [finished released]. intros [->|In]%elem_of_cons; [|by apply Rel].
    destruct (Live _ _ E) as [[? _]|[_ A]]; [congruence|].
    split; cbn; [done|]. by rewrite A, Q.
Qed.

Lemma registration_no_port c tag : listening_ports [registration c tag] = [].
Proof. by destruct c. Qed.

Lemma listening_ports_step s s' :
  step s s' → listening_ports (trace s') = listening_ports (trace s).
Proof.
  intros St. destruct St as [tag name cd s E|this cd s E Q|this cd s E Q]; [done| |done].
  unfold processed, listening_ports. cbn [trace].
  rewrite omap_app. destruct (dyn_class cd); cbn; by rewrite app_nil_r.
Qed.

(** ** The state in which the loop is entered *)

Lemma started_heap s :
  let hello := alloc (heap s) in
  let bye := alloc (<[hello := fresh_call HelloCallData]> (heap s)) in
  hello ≠ bye ∧
  heap (started s) =
    <[bye := fresh_call ByeCallData]> (<[hello := fresh_call HelloCallData]> (heap s)) ∧
  trace (started s) =
    (trace s ++ [AddListeningPort "0.0.0.0:50051" InsecureServerCredentials;
                 RegisterService; AddCompletionQueue; BuildAndStart;
                 Cout "Server listening on 0.0.0.0:50051";
                 RequestSayHello hello; RequestSayGoodbye bye])%list ∧
  released (started s) = released s.
Proof.
  cbn zeta. split; [|split; [done|split; [|done]]].
  - intros Eq. symmetry in Eq. revert Eq. eapply alloc_other, lookup_insert_eq.
  - cbv [started Run HandleRpcs final mbind M_bind emit new_HelloCallData
         new_ByeCallData new mret M_ret event_loop block trace heap released].
    by rewrite <- !app_assoc.
Qed.

Lemma started_accepting c s : accepting c (started s).
Proof.
  destruct (started_heap s) as (Ne & Hp & _). cbn zeta in *.
  destruct c.
  - eexists _, (fresh_call HelloCallData). rewrite Hp.
    rewrite lookup_insert_ne by (intros E; by symmetry in E).
    by rewrite lookup_insert_eq.
  - eexists _, (fresh_call ByeCallData). rewrite Hp.
    by rewrite lookup_insert_eq.
Qed.

Lemma started_lifecycle s : lifecycle s → lifecycle (started s).
Proof.
  intros [Live Rel]. destruct (started_heap s) as (Ne & Hp & _ & Rl). cbn zeta in *.
  split; [|by rewrite Rl].
  intros t w. rewrite Hp. intros L.
  apply lookup_insert_Some in L as [[_ <-]|[_ L]]; [by left|].
  apply lookup_insert_Some in L as [[_ <-]|[_ L]]; [by left|].
  by apply (Live t).
Qed.

Lemma init_lifecycle : lifecycle init_state.
Proof.
  split.
  - intros t w L. unfold init_state in L. cbn [heap] in L.
    by rewrite lookup_empty in L.
  - intros w In. by apply elem_of_nil in In.
Qed.

(** At every state [main] reaches, however it ends. *)
Lemma main_accepting argc argv script c :
  accepting c (final (main argc argv script init_state)).
Proof.
  rewrite (proj1 (main_eq _ _ _ _)).
  apply (event_loop_invariant (accepting c)); [apply accepting_step|].
  apply started_accepting.
Qed.

Lemma main_lifecycle argc argv script :
  lifecycle (final (main argc argv script init_state)).
Proof.
  rewrite (proj1 (main_eq _ _ _ _)).
  apply (event_loop_invariant lifecycle); [apply lifecycle_step|].
  apply started_lifecycle, init_lifecycle.
Qed.

Lemma main_listening_ports argc argv script :
  listening_ports (trace (final (main argc argv script init_state))) =
    [("0.0.0.0:50051", InsecureServerCredentials)].
Proof.
  rewrite (proj1 (main_eq _ _ _ _)).
  apply (event_loop_invariant
           (λ s, listening_ports (trace s) = [("0.0.0.0:50051", InsecureServerCredentials)])).
  - intros s s' I St. by rewrite (listening_ports_step _ _ St).
  - done.
Qed.

(** ** The call state machine *)

(** C1. [Proceed] on a live object in [PROCESS] returns and leaves: the
    object alive in [FINISH] (the dispatcher has nothing to release:
    [Continue]); a sibling of the same class, at an address that held no
    object, freshly constructed in [PROCESS]; the reply computed from the
    class and the request alone; and, in the trace, the registration of the
    sibling followed by [Finish] with the object's own address as tag, with
    the computed reply and [Status::OK]. Nothing else changes. *)
Theorem Proceed_from_PROCESS this cd s :
  heap s !! this = Some cd →
  status_ cd = PROCESS →
  ∃ s' sib,
    Proceed this s = Ret () s' ∧
    heap s !! sib = None ∧ sib ≠ this ∧
    heap s' !! sib = Some (mkCallData (dyn_class cd) PROCESS "" "" []) ∧
    heap s' !! this =
      Some (mkCallData (dyn_class cd) FINISH (request_ cd)
                       (response (dyn_class cd) (request_ cd))
                       (advances cd ++ [PROCESS])) ∧
    (∀ tag, tag ≠ this → tag ≠ sib → heap s' !! tag = heap s !! tag) ∧
    trace s' =
      (trace s ++ [registration (dyn_class cd) sib;
                   Finish this (reply_message (dyn_class cd)
                                  (response (dyn_class cd) (request_ cd))) OK])%list ∧
    released s' = released s ∧
    action_after this s' = Continue.
Proof.
  intros E Q. exists (processed this cd s), (sibling this cd s).
  split; [by apply Proceed_PROCESS|].
  split; [apply sibling_fresh|].
  split; [apply sibling_other|].
  split; [apply processed_sibling|].
  split; [by rewrite processed_this, Q|].
  split; [intros tag N1 N2; by apply processed_other|].
  split; [done|]. split; [done|].
  unfold action_after. by rewrite processed_this.
Qed.

(** C2. [Proceed] on a live object in [FINISH] returns after [delete this]:
    the object is no longer in the heap (the dispatcher's [Release]) and
    nothing else changes. An object that [Proceed] has deleted was in
    [FINISH] when [Proceed] was entered, and in every state [main] reaches the
    deleted objects were all in [FINISH]. *)
Theorem Proceed_from_FINISH this cd s :
  heap s !! this = Some cd →
  status_ cd = FINISH →
  Proceed this s =
    Ret () (mkState (delete this (heap s)) (trace s) (log_advance cd :: released s)) ∧
  heap (final (Proceed this s)) !! this = None ∧
  action_after this (final (Proceed this s)) = Release ∧
  (∀ that cd' s0,
     heap s0 !! that = Some cd' →
     action_after that (final (Proceed that s0)) = Release ∨
     released (final (Proceed that s0)) ≠ released s0 →
     status_ cd' = FINISH) ∧
  (∀ argc argv script cd',
     cd' ∈ released (final (main argc argv script init_state)) →
     status_ cd' = FINISH).
Proof.
  intros E Q. rewrite (Proceed_FINISH _ _ _ E Q). unfold finished. cbn [final heap].
  split; [done|]. split; [apply lookup_delete_eq|].
  split; [unfold action_after; cbn [heap]; by rewrite lookup_delete_eq|].
  split.
  - intros that cd' s0 E' R. destruct (status_ cd') eqn:Q'; [|done].
    rewrite (Proceed_PROCESS _ _ _ E' Q') in R. cbn [final] in R.
    unfold action_after in R. rewrite processed_this in R.
    by destruct R.
  - intros argc argv script cd' In.
    by apply (proj2 (main_lifecycle argc argv script)) in In as [? _].
Qed.

(** C6. In every state [main] reaches, however it ends: a live object in
    [PROCESS] has never been advanced; a live object in [FINISH] has been
    advanced once, and was in [PROCESS] then; a released object has been
    advanced exactly twice, first in [PROCESS] and then in [FINISH]. So no
    object is advanced a third time, and none is released without having gone
    through both states. *)
Theorem advanced_exactly_twice argc argv script :
  (∀ tag cd,
     heap (final (main argc argv script init_state)) !! tag = Some cd →
     (status_ cd = PROCESS ∧ advances cd = []) ∨
     (status_ cd = FINISH ∧ advances cd = [PROCESS])) ∧
  (∀ cd,
     cd ∈ released (final (main argc argv script init_state)) →
     status_ cd = FINISH ∧ advances cd = [PROCESS; FINISH]).
Proof. apply main_lifecycle. Qed.

(** ** The replies *)

(** A request arrives for a live object in [PROCESS] and its tag is
    delivered. *)
Lemma call_served tag cd s name :
  heap s !! tag = Some cd →
  status_ cd = PROCESS →
  event_loop [Incoming tag name; NextReturns (NextTag tag true)] s =
    Block (processed tag (set_request name cd) (stored tag name cd s)).
Proof.
  intros E Q.
  rewrite event_loop_cons. cbn [loop_body]. unfold runtime_stores. rewrite E.
  fold (stored tag name cd s).
  rewrite event_loop_cons, loop_body_ok.
  rewrite (Proceed_PROCESS tag (set_request name cd)); [done| |done].
  cbn [stored heap]. apply lookup_insert_eq.
Qed.

(** C7. When the runtime has stored a request with name [name] into a live
    [HelloCallData] in [PROCESS] and delivers its tag with [ok], the loop
    calls [Finish] on that tag with the message ["Hello "] followed by
    [name], and waits for the next event. *)
Theorem greeting_reply tag cd s name :
  heap s !! tag = Some cd →
  dyn_class cd = HelloCallData →
  status_ cd = PROCESS →
  ∃ s' sib,
    event_loop [Incoming tag name; NextReturns (NextTag tag true)] s = Block s' ∧
    trace s' =
      (trace s ++ [RequestSayHello sib;
                   Finish tag (HelloReply ("Hello " +:+ name)) OK])%list ∧
    reply_ <$> heap s' !! tag = Some ("Hello " +:+ name).
Proof.
  intros E C Q.
  exists (processed tag (set_request name cd) (stored tag name cd s)),
         (sibling tag (set_request name cd) (stored tag name cd s)).
  rewrite (call_served _ _ _ _ E Q).
  split; [done|]. split.
  - unfold processed. cbn [trace stored set_request dyn_class request_].
    by rewrite C.
  - rewrite processed_this. cbn. by rewrite C.
Qed.

(** C8. The same for a [ByeCallData]: the message is ["Goodbye "] followed by
    [name]. *)
Theorem farewell_reply tag cd s name :
  heap s !! tag = Some cd →
  dyn_class cd = ByeCallData →
  status_ cd = PROCESS →
  ∃ s' sib,
    event_loop [Incoming tag name; NextReturns (NextTag tag true)] s = Block s' ∧
    trace s' =
      (trace s ++ [RequestSayGoodbye sib;
                   Finish tag (GoodbyeReply ("Goodbye " +:+ name)) OK])%list ∧
    reply_ <$> heap s' !! tag = Some ("Goodbye " +:+ name).
Proof.
  intros E C Q.
  exists (processed tag (set_request name cd) (stored tag name cd s)),
         (sibling tag (set_request name cd) (stored tag name cd s)).
  rewrite (call_served _ _ _ _ E Q).
  split; [done|]. split.
  - unfold processed. cbn [trace stored set_request dyn_class request_].
    by rewrite C.
  - rewrite processed_this. cbn. by rewrite C.
Qed.

(** ** The dispatcher and the server *)

(** C3, as the code has it. When the dispatcher waits in [Next] and [Next]
    reports that the queue is shut down, the assertion on the value of [Next]
    fails: the process aborts in the state it was in, whatever would have
    followed. [HandleRpcs] returns in no case. *)
Theorem HandleRpcs_shutdown_aborts pre rest s s1 :
  HandleRpcs pre s = Block s1 →
  HandleRpcs (pre ++ NextReturns NextShutdown :: rest) s = Abort s1 ∧
  (∀ script s0 u s', HandleRpcs script s0 ≠ Ret u s').
Proof.
  intros B. split.
  - rewrite HandleRpcs_eq in *. by rewrite (event_loop_app _ _ _ _ B).
  - intros script s0 u s'. rewrite HandleRpcs_eq. apply event_loop_never_returns.
Qed.

(** C4. When the dispatcher waits in [Next] and [Next] delivers a tag with
    [ok] false, the assertion on [ok] fails: the process aborts in the state
    it was in, so [Proceed] has not run and no object has changed or been
    deleted. *)
Theorem HandleRpcs_not_ok_aborts pre rest tag s s1 :
  HandleRpcs pre s = Block s1 →
  HandleRpcs (pre ++ NextReturns (NextTag tag false) :: rest) s = Abort s1.
Proof.
  intros B. rewrite HandleRpcs_eq in *. by rewrite (event_loop_app _ _ _ _ B).
Qed.

(** C5. [main] enters the loop with exactly two objects, a [HelloCallData]
    and a [ByeCallData], both freshly constructed and registered; and in
    every state [main] reaches from there, however it ends, each class has a
    live object in [PROCESS]. The states are those between two turns of the
    loop. *)
Theorem method_always_accepting argc argv :
  (∃ hello bye,
     hello ≠ bye ∧
     heap (final (main argc argv [] init_state)) =
       <[bye := mkCallData ByeCallData PROCESS "" "" []]>
         {[hello := mkCallData HelloCallData PROCESS "" "" []]} ∧
     trace (final (main argc argv [] init_state)) =
       [AddListeningPort "0.0.0.0:50051" InsecureServerCredentials;
        RegisterService; AddCompletionQueue; BuildAndStart;
        Cout "Server listening on 0.0.0.0:50051";
        RequestSayHello hello; RequestSayGoodbye bye]) ∧
  (∀ script c,
     ∃ tag cd,
       heap (final (main argc argv script init_state)) !! tag = Some cd ∧
       dyn_class cd = c ∧ status_ cd = PROCESS).
Proof.
  split; [|intros script c; apply main_accepting].
  destruct (started_heap init_state) as (Ne & Hp & Tr & _). cbn zeta in *.
  eexists _, _. split; [exact Ne|]. split; [exact Hp|exact Tr].
Qed.

(** X11. The destructor on a [ServerImpl] whose [server_] is null, as the
    constructor leaves it when [Run] has not been called: the first statement
    goes through the null pointer, the behaviour is undefined and no shutdown
    call has been made. *)
Theorem ServerImpl_destroy_null_server this s :
  server_ this = None → ServerImpl_destroy this s = Undef s.
Proof. intros E. unfold ServerImpl_destroy. rewrite bind_unfold, E. done. Qed.

(** With [server_] assigned and [cq_] null, the same happens at the second
    statement, after the shutdown of the server. *)
Lemma ServerImpl_destroy_null_cq this srv s :
  server_ this = Some srv → cq_ this = None →
  ServerImpl_destroy this s =
    Undef (mkState (heap s) (trace s ++ [ServerShutdown]) (released s)).
Proof.
  intros E1 E2. unfold ServerImpl_destroy.
  rewrite bind_unfold, E1. cbn [arrow]. rewrite bind_unfold. unfold emit at 1.
  rewrite bind_unfold, E2. done.
Qed.

(** C9. On a [ServerImpl] whose [server_] and [cq_] are assigned, as [Run]
    assigns them, the destructor returns after two calls, in this order: the
    shutdown of the server, then the shutdown of the completion queue. The
    call objects are left as they are. *)
Theorem destroy_server_before_queue this srv cq s :
  server_ this = Some srv →
  cq_ this = Some cq →
  ServerImpl_destroy this s =
    Ret () (mkState (heap s) (trace s ++ [ServerShutdown; CqShutdown]) (released s)) ∧
  shutdowns (trace (final (ServerImpl_destroy this s))) =
    (shutdowns (trace s) ++ [ServerShutdown; CqShutdown])%list.
Proof.
  intros E1 E2.
  assert (ServerImpl_destroy this s =
          Ret () (mkState (heap s) (trace s ++ [ServerShutdown; CqShutdown]) (released s)))
    as E.
  { unfold ServerImpl_destroy.
    rewrite bind_unfold, E1. cbn [arrow]. rewrite bind_unfold. unfold emit at 1.
    rewrite bind_unfold, E2. cbn [arrow]. unfold emit. cbn [trace heap released].
    by rewrite <- app_assoc. }
  rewrite E. split; [done|]. cbn [final trace].
  unfold shutdowns. by rewrite filter_app.
Qed.

(** C10. [main] does not depend on [argc] and [argv]: with the same events
    it ends in the same way and in the same state. Whatever the arguments and
    the events, the only port [main] listens on is ["0.0.0.0:50051"], with
    insecure credentials. *)
Theorem main_ignores_arguments argc argv argc' argv' script s :
  main argc argv script s = main argc' argv' script s ∧
  listening_ports (trace (final (main argc argv script init_state))) =
    [("0.0.0.0:50051", InsecureServerCredentials)].
Proof. split; [reflexivity|apply main_listening_ports]. Qed.

End Properties.

(** * Further properties of the life cycle *)

(** ** Counting *)

Lemma live_count_insert_fresh p (h : gmap nat CallData) k v :
  h !! k = None →
  live_count p (<[k := v]> h) = (if p v then 1 else 0) + live_count p h.
Proof.
  intros E. unfold live_count. rewrite map_filter_insert. cbn [snd].
  destruct (p v) eqn:Pv.
  - rewrite decide_True by done. rewrite map_size_insert_None; [done|].
    apply map_lookup_filter_None. by left.
  - rewrite decide_False by done. by rewrite delete_id.
Qed.

Lemma live_count_delete p (h : gmap nat CallData) k v :
  h !! k = Some v →
  live_count p h = (if p v then 1 else 0) + live_count p (delete k h).
Proof.
  intros E. rewrite <- (insert_id h k v E) at 1. rewrite <- insert_delete_eq.
  apply live_count_insert_fresh, lookup_delete_eq.
Qed.

Lemma live_count_update p (h : gmap nat CallData) k v0 v :
  h !! k = Some v0 →
  live_count p (<[k := v]> h) + (if p v0 then 1 else 0) =
    (if p v then 1 else 0) + live_count p h.
Proof.
  intros E. rewrite <- (insert_delete_eq h).
  rewrite live_count_insert_fresh by apply lookup_delete_eq.
  rewrite (live_count_delete p h k v0 E). lia.
Qed.

Lemma count_calls_app p t1 t2 :
  count_calls p (t1 ++ t2) = count_calls p t1 + count_calls p t2.
Proof. unfold count_calls. by rewrite filter_app, length_app. Qed.

Section Accounting.

Context {allocator : Allocator}.

(** The heap after [Proceed] in [PROCESS], as two updates of the heap
    before. *)
Lemma processed_heap this cd s :
  heap (processed this cd s) =
    <[sibling this cd s := fresh_call (dyn_class cd)]>
      (<[this := set_message (response (dyn_class cd) (request_ cd))
                   (set_status FINISH (log_advance cd))]> (heap s)).
Proof.
  unfold processed. cbn [heap].
  rewrite (insert_insert_ne _ this (sibling this cd s)) by (symmetry; apply sibling_other).
  by rewrite insert_insert_eq.
Qed.

Lemma processed_count p this cd s :
  heap s !! this = Some cd →
  live_count p (heap (processed this cd s)) + (if p cd then 1 else 0) =
    (if p (fresh_call (dyn_class cd)) then 1 else 0) +
    (if p (set_message (response (dyn_class cd) (request_ cd))
             (set_status FINISH (log_advance cd))) then 1 else 0) +
    live_count p (heap s).
Proof.
  intros E. rewrite processed_heap.
  rewrite live_count_insert_fresh.
  - pose proof (live_count_update p (heap s) this cd
       (set_message (response (dyn_class cd) (request_ cd))
          (set_status FINISH (log_advance cd))) E). lia.
  - rewrite lookup_insert_ne by (symmetry; apply sibling_other). apply sibling_fresh.
Qed.

Lemma live_count_empty p : live_count p ∅ = 0.
Proof. unfold live_count. by rewrite map_filter_empty, map_size_empty. Qed.

(** The heap in which [main] enters the loop. *)
Lemma started_init_heap :
  ∃ hello bye,
    hello ≠ bye ∧
    heap (started init_state) =
      <[bye := fresh_call ByeCallData]> (<[hello := fresh_call HelloCallData]> ∅).
Proof.
  destruct (started_heap init_state) as (Ne & Hp & _). cbn zeta in *.
  eexists _, _. split; [exact Ne|exact Hp].
Qed.

Lemma started_init_count p :
  live_count p (heap (started init_state)) =
    (if p (fresh_call ByeCallData) then 1 else 0) +
    (if p (fresh_call HelloCallData) then 1 else 0).
Proof.
  destruct started_init_heap as (hello & bye & Ne & ->).
  rewrite live_count_insert_fresh.
  - rewrite live_count_insert_fresh by apply lookup_empty.
    rewrite live_count_empty. lia.
  - rewrite lookup_insert_ne by done. apply lookup_empty.
Qed.

(** ** Objects and registrations *)

Lemma registrations_match_step c s s' :
  registrations_match c s → step s s' → registrations_match c s'.
Proof.
  unfold registrations_match. intros I St.
  destruct St as [tag name cd s E|this cd s E Q|this cd s E Q].
  - cbn [stored heap trace released].
    pose proof (live_count_update (of_class c) (heap s) tag cd (set_request name cd) E) as U.
    change (of_class c (set_request name cd)) with (of_class c cd) in U. lia.
  - pose proof (processed_count (of_class c) this cd s E) as U.
    change (of_class c (set_message _ _)) with (of_class c cd) in U.
    unfold processed at 1 3. cbn [trace released]. rewrite count_calls_app.
    assert (count_calls (is_registration c)
              [registration (dyn_class cd) (sibling this cd s);
               Finish this (reply_message (dyn_class cd)
                              (response (dyn_class cd) (request_ cd))) OK] =
            if of_class c (fresh_call (dyn_class cd)) then 1 else 0) as ->.
    { by destruct c, (dyn_class cd). }
    lia.
  - cbn [finished heap trace released].
    pose proof (live_count_delete (of_class c) (heap s) this cd E) as D.
    change (of_class c (log_advance cd)) with (of_class c cd) in *.
    destruct (of_class c cd) eqn:P.
    + rewrite filter_cons_True by exact P. cbn [length]. lia.
    + rewrite filter_cons_False; [lia|]. intros T.
      change (of_class c cd = true) in T. congruence.
Qed.

Lemma registrations_match_started c : registrations_match c (started init_state).
Proof.
  unfold registrations_match. rewrite started_init_count.
  destruct (started_heap init_state) as (_ & _ & -> & ->). cbn zeta.
  by destruct c.
Qed.

(** ** Objects and calls of [Finish] *)

Lemma in_FINISH_true cd : status_ cd = FINISH → in_FINISH cd = true.
Proof. intros Q. unfold in_FINISH. by rewrite bool_decide_eq_true. Qed.

Lemma in_FINISH_false cd : status_ cd = PROCESS → in_FINISH cd = false.
Proof. intros Q. unfold in_FINISH. rewrite bool_decide_eq_false. congruence. Qed.

Lemma finishes_match_step s s' : finishes_match s → step s s' → finishes_match s'.
Proof.
  unfold finishes_match. intros I St.
  destruct St as [tag name cd s E|this cd s E Q|this cd s E Q].
  - cbn [stored heap trace released].
    pose proof (live_count_update in_FINISH (heap s) tag cd (set_request name cd) E) as U.
    change (in_FINISH (set_request name cd)) with (in_FINISH cd) in U. lia.
  - pose proof (processed_count in_FINISH this cd s E) as U.
    rewrite (in_FINISH_false cd Q) in U.
    rewrite (in_FINISH_true (set_message _ _)) in U by done.
    rewrite (in_FINISH_false (fresh_call _)) in U by done.
    unfold processed at 1 3. cbn [trace released]. rewrite count_calls_app.
    assert (count_calls is_Finish
              [registration (dyn_class cd) (sibling this cd s);
               Finish this (reply_message (dyn_class cd)
                              (response (dyn_class cd) (request_ cd))) OK] = 1) as ->.
    { by destruct (dyn_class cd). }
    lia.
  - cbn [finished heap trace released length].
    pose proof (live_count_delete in_FINISH (heap s) this cd E) as D.
    rewrite (in_FINISH_true cd Q) in D. lia.
Qed.

Lemma finishes_match_started : finishes_match (started init_state).
Proof.
  unfold finishes_match. rewrite started_init_count.
  by destruct (started_heap init_state) as (_ & _ & -> & ->).
Qed.

(** ** The size of the heap *)

Lemma heap_accounted_step s s' : heap_accounted s → step s s' → heap_accounted s'.
Proof.
  unfold heap_accounted. intros I St.
  destruct St as [tag name cd s E|this cd s E Q|this cd s E Q].
  - cbn [stored heap].
    pose proof (live_count_update in_FINISH (heap s) tag cd (set_request name cd) E) as U.
    change (in_FINISH (set_request name cd)) with (in_FINISH cd) in U.
    rewrite map_size_insert_Some by eauto. lia.
  - pose proof (processed_count in_FINISH this cd s E) as U.
    rewrite (in_FINISH_false cd Q) in U.
    rewrite (in_FINISH_true (set_message _ _)) in U by done.
    rewrite (in_FINISH_false (fresh_call _)) in U by done.
    rewrite processed_heap in *.
    rewrite map_size_insert_None.
    + rewrite map_size_insert_Some by eauto. lia.
    + rewrite lookup_insert_ne by (symmetry; apply sibling_other). apply sibling_fresh.
  - cbn [finished heap].
    pose proof (live_count_delete in_FINISH (heap s) this cd E) as D.
    rewrite (in_FINISH_true cd Q) in D.
    rewrite map_size_delete_Some by eauto. lia.
Qed.

Lemma heap_accounted_started : heap_accounted (started init_state).
Proof.
  unfold heap_accounted. rewrite started_init_count.
  destruct started_init_heap as (hello & bye & Ne & ->).
  rewrite map_size_insert_None by (rewrite lookup_insert_ne by done; apply lookup_empty).
  by rewrite map_size_insert_None, map_size_empty by apply lookup_empty.
Qed.

(** ** One acceptor for each method *)

Lemma at_most_one_accepting_step c s s' :
  at_most_one_accepting c s → step s s' → at_most_one_accepting c s'.
Proof.
  intros U St.
  destruct St as [tag name cd s E|this cd s E Q|this cd s E Q];
    intros t1 t2 w1 w2 L1 L2 C1 C2 P1 P2.
  - assert (∀ t w, heap (stored tag name cd s) !! t = Some w →
                   ∃ w', heap s !! t = Some w' ∧
                         dyn_class w' = dyn_class w ∧ status_ w' = status_ w) as Back.
    { intros t w. cbn [stored heap]. destruct (decide (tag = t)) as [->|Ne].
      - rewrite lookup_insert_eq. intros [= <-]. by exists cd.
      - rewrite lookup_insert_ne by done. intros L. by exists w. }
    destruct (Back _ _ L1) as (v1 & M1 & D1 & S1).
    destruct (Back _ _ L2) as (v2 & M2 & D2 & S2).
    apply (U t1 t2 v1 v2); congruence.
  - assert (∀ t w, heap (processed this cd s) !! t = Some w →
                   status_ w = PROCESS →
                   (t = sibling this cd s ∧ dyn_class w = dyn_class cd) ∨
                   (t ≠ this ∧ heap s !! t = Some w)) as Back.
    { intros t w L P. destruct (decide (t = this)) as [->|N1].
      { rewrite processed_this in L. injection L as <-. discriminate P. }
      destruct (decide (t = sibling this cd s)) as [->|N2].
      { rewrite processed_sibling in L. injection L as <-. by left. }
      rewrite processed_other in L by done. by right. }
    destruct (Back _ _ L1 P1) as [[-> D1]|[N1 M1]],
             (Back _ _ L2 P2) as [[-> D2]|[N2 M2]].
    + done.
    + destruct N2. apply (U t2 this w2 cd); congruence.
    + destruct N1. apply (U t1 this w1 cd); congruence.
    + by apply (U t1 t2 w1 w2).
  - cbn [finished heap] in L1, L2.
    apply lookup_delete_Some in L1 as [_ L1].
    apply lookup_delete_Some in L2 as [_ L2].
    by apply (U t1 t2 w1 w2).
Qed.

Lemma at_most_one_accepting_started c : at_most_one_accepting c (started init_state).
Proof.
  destruct started_init_heap as (hello & bye & Ne & Hp).
  intros t1 t2 w1 w2 L1 L2 C1 C2 _ _. rewrite Hp in L1, L2.
  apply lookup_insert_Some in L1 as [[<- <-]|[_ L1]];
    apply lookup_insert_Some in L2 as [[<- <-]|[_ L2]]; try done.
  - apply lookup_insert_Some in L2 as [[<- <-]|[_ L2]];
      [cbn in *; congruence|by rewrite lookup_empty in L2].
  - apply lookup_insert_Some in L1 as [[<- <-]|[_ L1]];
      [cbn in *; congruence|by rewrite lookup_empty in L1].
  - apply lookup_insert_Some in L1 as [[<- <-]|[_ L1]];
      [|by rewrite lookup_empty in L1].
    apply lookup_insert_Some in L2 as [[<- <-]|[_ L2]];
      [done|by rewrite lookup_empty in L2].
Qed.

(** ** Replies and registrations *)

Lemma answers_registered_step s s' :
  answers_registered s → step s s' → answers_registered s'.
Proof.
  intros [Live Fin] St.
  destruct St as [tag name cd s E|this cd s E Q|this cd s E Q]; split.
  - intros t w. cbn [stored heap trace]. destruct (decide (tag = t)) as [->|Ne].
    + rewrite lookup_insert_eq. intros [= <-]. apply (Live _ _ E).
    + rewrite lookup_insert_ne by done. apply Live.
  - exact Fin.
  - intros t w L. unfold processed at 1. cbn [trace].
    destruct (decide (t = this)) as [->|N1].
    { rewrite processed_this in L. injection L as <-. cbn [dyn_class].
      destruct (Live _ _ E) as [j J]. exists j. by apply lookup_app_l_Some. }
    destruct (decide (t = sibling this cd s)) as [->|N2].
    { rewrite processed_sibling in L. injection L as <-. cbn [fresh_call dyn_class].
      exists (length (trace s)). by rewrite lookup_app_r, Nat.sub_diag. }
    rewrite processed_other in L by done.
    destruct (Live _ _ L) as [j J]. exists j. by apply lookup_app_l_Some.
  - intros i tag r st. unfold processed. cbn [trace]. intros L.
    apply lookup_app_Some in L as [L|[Ge L]].
    + destruct (Fin _ _ _ _ L) as (-> & c & name & j & -> & Lt & J).
      split; [done|]. exists c, name, j. split; [done|]. split; [done|].
      by apply lookup_app_l_Some.
    + destruct (i - length (trace s)) as [|[|k]] eqn:D; cbn in L.
      * by destruct (dyn_class cd).
      * injection L as <- <- <-. split; [done|].
        destruct (Live _ _ E) as [j J].
        exists (dyn_class cd), (request_ cd), j. split; [done|].
        split; [apply lookup_lt_Some in J; lia|by apply lookup_app_l_Some].
      * done.
  - intros t w. cbn [finished heap trace]. intros L.
    apply lookup_delete_Some in L as [_ L]. by apply (Live t).
  - exact Fin.
Qed.

Lemma answers_registered_started : answers_registered (started init_state).
Proof.
  destruct (started_heap init_state) as (Ne & Hp & Tr & _). cbn zeta in *.
  split.
  - intros t w. rewrite Hp, Tr. intros L.
    apply lookup_insert_Some in L as [[<- <-]|[_ L]]; [by exists 6|].
    apply lookup_insert_Some in L as [[<- <-]|[_ L]]; [by exists 5|].
    unfold init_state in L. cbn [heap] in L. by rewrite lookup_empty in L.
  - intros i tag r st. rewrite Tr. intros L.
    do 7 (destruct i as [|i]; [discriminate L|]). discriminate L.
Qed.

(** ** No shutdown *)

Lemma shutdowns_step s s' : step s s' → shutdowns (trace s') = shutdowns (trace s).
Proof.
  intros St. destruct St as [tag name cd s E|this cd s E Q|this cd s E Q]; [done| |done].
  unfold processed, shutdowns. cbn [trace].
  rewrite filter_app. destruct (dyn_class cd); cbn; by rewrite app_nil_r.
Qed.

(** ** In every state [main] reaches *)

(** X1. [main] never returns, whatever the runtime delivers: the value 0 is
    never produced, the destructor of [server] never runs, and the trace holds
    no shutdown of the server or of the completion queue. *)
Theorem main_never_shuts_down argc argv script :
  (∀ z s', main argc argv script init_state ≠ Ret z s') ∧
  shutdowns (trace (final (main argc argv script init_state))) = [].
Proof.
  split; [apply main_eq|].
  rewrite (proj1 (main_eq _ _ _ _)).
  apply (event_loop_invariant (λ s, shutdowns (trace s) = [])); [|done].
  intros s s' I St. by rewrite (shutdowns_step _ _ St).
Qed.

(** X2. In every state [main] reaches, each class has exactly one live
    object in [PROCESS]: the server holds one acceptor for each method, never
    two. *)
Theorem one_acceptor_per_method argc argv script c :
  ∃ tag cd,
    heap (final (main argc argv script init_state)) !! tag = Some cd ∧
    dyn_class cd = c ∧ status_ cd = PROCESS ∧
    ∀ tag' cd',
      heap (final (main argc argv script init_state)) !! tag' = Some cd' →
      dyn_class cd' = c → status_ cd' = PROCESS →
      tag' = tag.
Proof.
  destruct (main_accepting argc argv script c) as (tag & cd & L & C & P).
  exists tag, cd. split; [done|]. split; [done|]. split; [done|].
  intros tag' cd' L' C' P'.
  assert (at_most_one_accepting c (final (main argc argv script init_state))) as U.
  { rewrite (proj1 (main_eq _ _ _ _)).
    apply (event_loop_invariant (at_most_one_accepting c));
      [apply at_most_one_accepting_step|apply at_most_one_accepting_started]. }
  by apply (U tag' tag cd' cd).
Qed.

(** X3. In every state [main] reaches, the registration calls of a class in
    the trace are as many as the objects of that class, live and released
    together: every object was registered once by its constructor, and no
    object has disappeared otherwise than by [delete this]. *)
Theorem registrations_count_objects argc argv script c :
  count_calls (is_registration c) (trace (final (main argc argv script init_state))) =
    live_count (of_class c) (heap (final (main argc argv script init_state))) +
    length (filter (λ cd, of_class c cd = true)
                   (released (final (main argc argv script init_state)))).
Proof.
  rewrite (proj1 (main_eq _ _ _ _)).
  apply (event_loop_invariant (registrations_match c));
    [apply registrations_match_step|apply registrations_match_started].
Qed.

(** X4. In every state [main] reaches, the calls of [Finish] in the trace are
    as many as the live objects in [FINISH] and the released objects
    together: an object calls [Finish] once, when it leaves [PROCESS], and
    never again. *)
Theorem finishes_count_advanced_objects argc argv script :
  count_calls is_Finish (trace (final (main argc argv script init_state))) =
    live_count in_FINISH (heap (final (main argc argv script init_state))) +
    length (released (final (main argc argv script init_state))).
Proof.
  rewrite (proj1 (main_eq _ _ _ _)).
  apply (event_loop_invariant finishes_match);
    [apply finishes_match_step|apply finishes_match_started].
Qed.

(** X5. In every state [main] reaches, the heap holds the two acceptors and
    the objects in [FINISH], nothing else: what the process leaves behind
    when it ends are the two acceptors and the calls whose second event has
    not been handled. *)
Theorem heap_is_acceptors_and_finishing argc argv script :
  size (heap (final (main argc argv script init_state))) =
    2 + live_count in_FINISH (heap (final (main argc argv script init_state))).
Proof.
  rewrite (proj1 (main_eq _ _ _ _)).
  apply (event_loop_invariant heap_accounted);
    [apply heap_accounted_step|apply heap_accounted_started].
Qed.

(** X6. When the tag of a live object in [FINISH] is delivered twice with
    [ok], the first delivery deletes the object and the second calls
    [Proceed] through the dangling pointer: the dispatcher has no check that
    a tag is a live object. *)
Theorem tag_delivered_after_release this cd s rest :
  heap s !! this = Some cd →
  status_ cd = FINISH →
  event_loop (NextReturns (NextTag this true) :: NextReturns (NextTag this true) :: rest) s =
    Undef (mkState (delete this (heap s)) (trace s) (log_advance cd :: released s)).
Proof.
  intros E Q.
  rewrite event_loop_cons, loop_body_ok, (Proceed_FINISH _ _ _ E Q).
  rewrite event_loop_cons, loop_body_ok.
  rewrite Proceed_dangling; [done|]. apply lookup_delete_eq.
Qed.

(** X7. In every state [main] reaches, every call of [Finish] in the trace
    passes [Status::OK], and its tag was registered earlier in the trace by
    the constructor of a class whose reply it carries, the message being the
    prefix of that class followed by some name. *)
Theorem every_reply_follows_a_registration argc argv script i tag r st :
  trace (final (main argc argv script init_state)) !! i = Some (Finish tag r st) →
  st = OK ∧
  ∃ c name j,
    r = reply_message c (response c name) ∧
    j < i ∧
    trace (final (main argc argv script init_state)) !! j = Some (registration c tag).
Proof.
  assert (answers_registered (final (main argc argv script init_state))) as [_ Fin].
  { rewrite (proj1 (main_eq _ _ _ _)).
    apply (event_loop_invariant answers_registered);
      [apply answers_registered_step|apply answers_registered_started]. }
  apply Fin.
Qed.

(** ** How the loop ends *)

Lemma Proceed_returns_or_dangles this s :
  (∃ s', Proceed this s = Ret () s') ∨ (heap s !! this = None ∧ Proceed this s = Undef s).
Proof.
  destruct (heap s !! this) as [cd|] eqn:E.
  - left. destruct (status_ cd) eqn:Q.
    + eexists. by apply Proceed_PROCESS.
    + eexists. by apply Proceed_FINISH.
  - right. split; [done|]. by apply Proceed_dangling.
Qed.

Lemma loop_body_Abort e s s2 :
  loop_body e s = Abort s2 →
  s2 = s ∧ ∃ r, e = NextReturns r ∧ (r = NextShutdown ∨ ∃ tag, r = NextTag tag false).
Proof.
  destruct e as [tag name|[|tag [|]]].
  - cbn [loop_body]. unfold runtime_stores. by destruct (heap s !! tag).
  - rewrite loop_body_shutdown. intros [= <-]. split; [done|]. eexists. split; [done|]. by left.
  - rewrite loop_body_ok.
    destruct (Proceed_returns_or_dangles tag s) as [[s' ->]|[_ ->]]; discriminate.
  - rewrite loop_body_not_ok. intros [= <-]. split; [done|]. eexists. split; [done|].
    right. by exists tag.
Qed.

Lemma loop_body_Undef e s s2 :
  loop_body e s = Undef s2 →
  s2 = s ∧ ∃ tag, e = NextReturns (NextTag tag true) ∧ heap s !! tag = None.
Proof.
  destruct e as [tag name|[|tag [|]]].
  - cbn [loop_body]. unfold runtime_stores. by destruct (heap s !! tag).
  - by rewrite loop_body_shutdown.
  - rewrite loop_body_ok.
    destruct (Proceed_returns_or_dangles tag s) as [[s' ->]|[E ->]]; [discriminate|].
    intros [= <-]. split; [done|]. by exists tag.
  - by rewrite loop_body_not_ok.
Qed.

Lemma event_loop_Abort script s s1 :
  event_loop script s = Abort s1 →
  ∃ pre r rest,
    script = (pre ++ NextReturns r :: rest)%list ∧
    event_loop pre s = Block s1 ∧
    (r = NextShutdown ∨ ∃ tag, r = NextTag tag false).
Proof.
  revert s. induction script as [|e script IH]; intros s; [done|].
  rewrite event_loop_cons. destruct (loop_body e s) as [[] s2|s2|s2|s2] eqn:B; try done.
  - intros (pre & r & rest & -> & Bl & R)%IH.
    exists (e :: pre), r, rest. split; [done|]. split; [|done].
    by rewrite event_loop_cons, B.
  - intros [= <-]. apply loop_body_Abort in B as (-> & r & -> & R).
    by exists [], r, script.
Qed.

Lemma event_loop_Undef script s s1 :
  event_loop script s = Undef s1 →
  ∃ pre tag rest,
    script = (pre ++ NextReturns (NextTag tag true) :: rest)%list ∧
    event_loop pre s = Block s1 ∧
    heap s1 !! tag = None.
Proof.
  revert s. induction script as [|e script IH]; intros s; [done|].
  rewrite event_loop_cons. destruct (loop_body e s) as [[] s2|s2|s2|s2] eqn:B; try done.
  - intros (pre & tag & rest & -> & Bl & D)%IH.
    exists (e :: pre), tag, rest. split; [done|]. split; [|done].
    by rewrite event_loop_cons, B.
  - intros [= <-]. apply loop_body_Undef in B as (-> & tag & -> & D).
    by exists [], tag, script.
Qed.

(** X8. [HandleRpcs] aborts only in its own two assertions: when the process
    aborts, the dispatcher was waiting in [Next] in that very state, and
    [Next] reported the shutdown of the queue or delivered an event that was
    not [ok]. The assertion in [Proceed] never fails. *)
Theorem HandleRpcs_aborts_only_in_Next script s s1 :
  HandleRpcs script s = Abort s1 →
  ∃ pre r rest,
    script = (pre ++ NextReturns r :: rest)%list ∧
    HandleRpcs pre s = Block s1 ∧
    (r = NextShutdown ∨ ∃ tag, r = NextTag tag false).
Proof. rewrite HandleRpcs_eq. intros A. by apply event_loop_Abort in A. Qed.

(** X9. The behaviour of [HandleRpcs] is undefined only when [Next] delivers,
    with [ok], a tag that is the address of no live object: the dispatcher
    was waiting in [Next] in that very state. *)
Theorem HandleRpcs_undefined_only_on_dead_tag script s s1 :
  HandleRpcs script s = Undef s1 →
  ∃ pre tag rest,
    script = (pre ++ NextReturns (NextTag tag true) :: rest)%list ∧
    HandleRpcs pre s = Block s1 ∧
    heap s1 !! tag = None.
Proof. rewrite HandleRpcs_eq. intros U. by apply event_loop_Undef in U. Qed.

(** ** The server under the discipline of the runtime *)

Lemma posted_since_processed this cd s :
  posted_since s (processed this cd s) = {[sibling this cd s; this]}.
Proof.
  unfold posted_since, processed. cbn [trace].
  rewrite drop_app_length. destruct (dyn_class cd); cbn; by rewrite union_empty_r_L.
Qed.

Lemma posted_since_finished this cd s : posted_since s (finished this cd s) = ∅.
Proof. unfold posted_since, finished. cbn [trace]. by rewrite drop_all. Qed.

Lemma disciplined_safe script pending s :
  disciplined pending script s = true →
  (∀ t, t ∈ pending → is_Some (heap s !! t)) →
  ∀ s', event_loop script s ≠ Undef s'.
Proof.
  revert pending s. induction script as [|e script IH]; intros pending s D Live s'; [done|].
  rewrite event_loop_cons. destruct e as [tag name|[|tag [|]]].
  - cbn [disciplined] in D. cbn [loop_body] in *. unfold runtime_stores in *.
    destruct (heap s !! tag) as [cd|] eqn:E; cbn [final] in D.
    + apply (IH _ _ D). intros t In. cbn [heap].
      destruct (decide (tag = t)) as [->|Ne];
        [by rewrite lookup_insert_eq|rewrite lookup_insert_ne by done; by apply Live].
    + by apply (IH _ _ D).
  - by rewrite loop_body_shutdown.
  - cbn [disciplined] in D. apply andb_prop in D as [In D].
    apply bool_decide_eq_true in In. destruct (Live _ In) as [cd E].
    rewrite loop_body_ok in *. destruct (status_ cd) eqn:Q.
    + rewrite (Proceed_PROCESS _ _ _ E Q) in *. cbn [final] in D.
      rewrite posted_since_processed in D.
      apply (IH _ _ D). intros t [[In' Ne]%elem_of_difference|In']%elem_of_union.
      * rewrite processed_other; [by apply Live|set_solver|].
        intros ->. destruct (Live _ In') as [w L]. by rewrite sibling_fresh in L.
      * apply elem_of_union in In' as [->%elem_of_singleton| ->%elem_of_singleton].
        -- by rewrite processed_sibling.
        -- by rewrite processed_this.
    + rewrite (Proceed_FINISH _ _ _ E Q) in *. cbn [final] in D.
      rewrite posted_since_finished in D.
      apply (IH _ _ D). intros t [[In' Ne]%elem_of_difference|In']%elem_of_union;
        [|set_solver].
      cbn [finished heap]. rewrite lookup_delete_ne by set_solver. by apply Live.
  - by rewrite loop_body_not_ok.
Qed.

(** X10. When the runtime delivers outstanding tags only, starting with the
    two registrations made before the loop, the behaviour of [main] is never
    undefined: every tag the dispatcher casts to a call object is the address
    of a live one. *)
Theorem main_defined_under_discipline argc argv script :
  disciplined (dom (heap (started init_state))) script (started init_state) = true →
  ∀ s', main argc argv script init_state ≠ Undef s'.
Proof.
  intros D s' U.
  assert (event_loop script (started init_state) = Undef s') as U'.
  { unfold main in U. cbn zeta in U. rewrite bind_unfold, Run_eq, bind_unfold in U.
    pose proof (event_loop_never_returns script (started init_state)) as NR.
    revert U. destruct (event_loop script (started init_state)) as [u s2|s2|s2|s2];
      [by destruct (NR u s2)|by intros [=]|by intros [= ->]|by intros [=]]. }
  revert U'. apply (disciplined_safe _ _ _ D).
  intros t In. by apply elem_of_dom in In.
Qed.

End Accounting.

(** * The model at work

    The theorems applied to runs of the model with the allocator
    [fresh_allocator]. *)

#[local] Existing Instance fresh_allocator.

Lemma Proceed_from_PROCESS_witness :
  heap ready !! 0 = Some (fresh_call HelloCallData) ∧
  status_ (fresh_call HelloCallData) = PROCESS ∧
  ∃ s' sib,
    Proceed 0 ready = Ret () s' ∧
    heap ready !! sib = None ∧ sib ≠ 0 ∧
    heap s' !! sib = Some (mkCallData HelloCallData PROCESS "" "" []) ∧
    heap s' !! 0 = Some (mkCallData HelloCallData FINISH "" "Hello " [PROCESS]) ∧
    (∀ tag, tag ≠ 0 → tag ≠ sib → heap s' !! tag = heap ready !! tag) ∧
    trace s' = (trace ready ++ [RequestSayHello sib; Finish 0 (HelloReply "Hello ") OK])%list ∧
    released s' = released ready ∧
    action_after 0 s' = Continue.
Proof.
  split; [vm_compute; reflexivity|]. split; [reflexivity|].
  apply (Proceed_from_PROCESS 0 (fresh_call HelloCallData) ready);
    [vm_compute; reflexivity|reflexivity].
Defined.

Lemma Proceed_from_FINISH_witness :
  heap greeted !! 0 = Some (mkCallData HelloCallData FINISH "World" "Hello World" [PROCESS]) ∧
  Proceed 0 greeted =
    Ret () (mkState (delete 0 (heap greeted)) (trace greeted)
                    [mkCallData HelloCallData FINISH "World" "Hello World" [PROCESS; FINISH]]) ∧
  heap (final (Proceed 0 greeted)) !! 0 = None ∧
  action_after 0 (final (Proceed 0 greeted)) = Release.
Proof.
  split; [vm_compute; reflexivity|].
  destruct (Proceed_from_FINISH 0
              (mkCallData HelloCallData FINISH "World" "Hello World" [PROCESS]) greeted)
    as (P & L & A & _); [vm_compute; reflexivity|reflexivity|].
  split; [exact P|]. split; [exact L|exact A].
Defined.

Lemma HandleRpcs_shutdown_aborts_witness :
  HandleRpcs world init_state = Block (final (HandleRpcs world init_state)) ∧
  HandleRpcs (world ++ [NextReturns NextShutdown]) init_state =
    Abort (final (HandleRpcs world init_state)) ∧
  (∀ script s0 u s', HandleRpcs script s0 ≠ Ret u s').
Proof.
  split; [vm_compute; reflexivity|].
  apply (HandleRpcs_shutdown_aborts world [] init_state). vm_compute; reflexivity.
Defined.

(** C3, as the claim has it, fails: from the initial state, with the
    dispatcher waiting in [Next], a shutdown of the queue does not make
    [HandleRpcs] return; the process aborts. *)
Lemma HandleRpcs_shutdown_not_clean :
  HandleRpcs [] init_state = Block (final (HandleRpcs [] init_state)) ∧
  HandleRpcs [NextReturns NextShutdown] init_state =
    Abort (final (HandleRpcs [] init_state)) ∧
  ¬ ∃ s', HandleRpcs [NextReturns NextShutdown] init_state = Ret () s'.
Proof.
  split; [reflexivity|]. split; [reflexivity|].
  intros [s' E]. discriminate E.
Qed.

Lemma HandleRpcs_not_ok_aborts_witness :
  HandleRpcs world init_state = Block (final (HandleRpcs world init_state)) ∧
  HandleRpcs (world ++ [NextReturns (NextTag 0 false)]) init_state =
    Abort (final (HandleRpcs world init_state)).
Proof.
  split; [vm_compute; reflexivity|].
  apply (HandleRpcs_not_ok_aborts world [] 0 init_state). vm_compute; reflexivity.
Defined.

Lemma greeting_reply_witness :
  heap ready !! 0 = Some (fresh_call HelloCallData) ∧
  dyn_class (fresh_call HelloCallData) = HelloCallData ∧
  status_ (fresh_call HelloCallData) = PROCESS ∧
  ∃ s' sib,
    event_loop [Incoming 0 "World"; NextReturns (NextTag 0 true)] ready = Block s' ∧
    trace s' =
      (trace ready ++ [RequestSayHello sib; Finish 0 (HelloReply "Hello World") OK])%list ∧
    reply_ <$> heap s' !! 0 = Some "Hello World".
Proof.
  split; [vm_compute; reflexivity|]. split; [reflexivity|]. split; [reflexivity|].
  apply (greeting_reply 0 (fresh_call HelloCallData) ready "World");
    [vm_compute; reflexivity|reflexivity|reflexivity].
Defined.

Lemma farewell_reply_witness :
  heap ready !! 1 = Some (fresh_call ByeCallData) ∧
  dyn_class (fresh_call ByeCallData) = ByeCallData ∧
  status_ (fresh_call ByeCallData) = PROCESS ∧
  ∃ s' sib,
    event_loop [Incoming 1 "World"; NextReturns (NextTag 1 true)] ready = Block s' ∧
    trace s' =
      (trace ready ++ [RequestSayGoodbye sib; Finish 1 (GoodbyeReply "Goodbye World") OK])%list ∧
    reply_ <$> heap s' !! 1 = Some "Goodbye World".
Proof.
  split; [vm_compute; reflexivity|]. split; [reflexivity|]. split; [reflexivity|].
  apply (farewell_reply 1 (fresh_call ByeCallData) ready "World");
    [vm_compute; reflexivity|reflexivity|reflexivity].
Defined.

(** A whole call: the request arrives, the tag is delivered twice, the object
    is released with both advances in its history, and both methods are
    still served. *)
Example a_call_from_start_to_release :
  ∃ s, main 0 [] (world ++ [NextReturns (NextTag 0 true)]) init_state = Block s ∧
       released s = [mkCallData HelloCallData FINISH "World" "Hello World" [PROCESS; FINISH]] ∧
       heap s !! 0 = None ∧
       heap s !! 1 = Some (fresh_call ByeCallData) ∧
       heap s !! 2 = Some (fresh_call HelloCallData).
Proof. eexists. split; [vm_compute; reflexivity|]. by vm_compute. Qed.

(** The tag of a released object delivered once more: the dispatcher calls
    [Proceed] through a dangling pointer. *)
Example a_stale_tag :
  ∃ s, main 0 []
         (world ++ [NextReturns (NextTag 0 true); NextReturns (NextTag 0 true)])
         init_state = Undef s.
Proof. eexists. vm_compute. reflexivity. Qed.

(** ** Further runs *)

Lemma tag_delivered_after_release_witness :
  heap greeted !! 0 = Some (mkCallData HelloCallData FINISH "World" "Hello World" [PROCESS]) ∧
  event_loop [NextReturns (NextTag 0 true); NextReturns (NextTag 0 true)] greeted =
    Undef (mkState (delete 0 (heap greeted)) (trace greeted)
             [mkCallData HelloCallData FINISH "World" "Hello World" [PROCESS; FINISH]]).
Proof.
  split; [vm_compute; reflexivity|].
  apply (tag_delivered_after_release 0
           (mkCallData HelloCallData FINISH "World" "Hello World" [PROCESS]) greeted []);
    [vm_compute; reflexivity|reflexivity].
Defined.

Lemma every_reply_follows_a_registration_witness :
  trace (final (main 0 [] world init_state)) !! 8 =
    Some (Finish 0 (HelloReply "Hello World") OK) ∧
  OK = OK ∧
  ∃ c name j,
    HelloReply "Hello World" = reply_message c (response c name) ∧
    j < 8 ∧
    trace (final (main 0 [] world init_state)) !! j = Some (registration c 0).
Proof.
  split; [vm_compute; reflexivity|].
  apply (every_reply_follows_a_registration 0 [] world 8 0 (HelloReply "Hello World") OK).
  vm_compute; reflexivity.
Defined.

Lemma HandleRpcs_aborts_only_in_Next_witness :
  HandleRpcs (world ++ [NextReturns (NextTag 2 false); NextReturns NextShutdown]) init_state =
    Abort (final (HandleRpcs world init_state)) ∧
  ∃ pre r rest,
    (world ++ [NextReturns (NextTag 2 false); NextReturns NextShutdown])%list =
      (pre ++ NextReturns r :: rest)%list ∧
    HandleRpcs pre init_state = Block (final (HandleRpcs world init_state)) ∧
    (r = NextShutdown ∨ ∃ tag, r = NextTag tag false).
Proof.
  split; [vm_compute; reflexivity|].
  apply (HandleRpcs_aborts_only_in_Next
           (world ++ [NextReturns (NextTag 2 false); NextReturns NextShutdown]) init_state).
  vm_compute; reflexivity.
Defined.

Lemma HandleRpcs_undefined_only_on_dead_tag_witness :
  HandleRpcs [NextReturns (NextTag 7 true)] init_state =
    Undef (final (HandleRpcs [] init_state)) ∧
  ∃ pre tag rest,
    [NextReturns (NextTag 7 true)] = (pre ++ NextReturns (NextTag tag true) :: rest)%list ∧
    HandleRpcs pre init_state = Block (final (HandleRpcs [] init_state)) ∧
    heap (final (HandleRpcs [] init_state)) !! tag = None.
Proof.
  split; [vm_compute; reflexivity|].
  apply (HandleRpcs_undefined_only_on_dead_tag [NextReturns (NextTag 7 true)] init_state).
  vm_compute; reflexivity.
Defined.

Lemma main_defined_under_discipline_witness :
  disciplined (dom (heap (started init_state))) two_calls (started init_state) = true ∧
  ∀ s', main 0 [] two_calls init_state ≠ Undef s'.
Proof.
  split; [vm_compute; reflexivity|].
  apply (main_defined_under_discipline 0 [] two_calls). vm_compute; reflexivity.
Defined.

(** The destructor on the object that [Run] passes on, with both members
    assigned, in the state in which the loop is entered; and on a server that
    was never run. *)
Lemma destroy_server_before_queue_witness :
  server_ (mkServerImpl (Some the_completion_queue) (Some the_server)) = Some the_server ∧
  cq_ (mkServerImpl (Some the_completion_queue) (Some the_server)) =
    Some the_completion_queue ∧
  ServerImpl_destroy (mkServerImpl (Some the_completion_queue) (Some the_server)) ready =
    Ret () (mkState (heap ready) (trace ready ++ [ServerShutdown; CqShutdown])
                    (released ready)) ∧
  shutdowns (trace (final (ServerImpl_destroy
                             (mkServerImpl (Some the_completion_queue) (Some the_server))
                             ready))) =
    (shutdowns (trace ready) ++ [ServerShutdown; CqShutdown])%list.
Proof.
  split; [reflexivity|]. split; [reflexivity|].
  apply (destroy_server_before_queue
           (mkServerImpl (Some the_completion_queue) (Some the_server))
           the_server the_completion_queue ready); reflexivity.
Defined.

Lemma ServerImpl_destroy_null_server_witness :
  server_ new_ServerImpl = None ∧
  ServerImpl_destroy new_ServerImpl init_state = Undef init_state.
Proof.
  split; [reflexivity|].
  apply (ServerImpl_destroy_null_server new_ServerImpl init_state). reflexivity.
Defined.
